(** * MapViewDirections: route splitting, polyline decoding, fetching and
      aggregation

    A shallow embedding of [src/MapViewDirections.tsx].  JavaScript numbers
    are IEEE 754 binary64 values and are modelled by Rocq's primitive
    floats; 32-bit integer operators ([|], [&], [<<], [>>], [~]) are written
    out on [Z]; arrays are lists, with holes where the source can create
    them; promises are modelled by their settled outcome and an explicit
    order of settlement. *)

From Stdlib Require Import ZArith String Ascii Bool Lia Floats ZifyNat.
From stdpp Require Import base option list strings.

Local Open Scope nat_scope.

(** ** Numbers and truthiness *)

Abbreviation number := float.

(** [ToBoolean] on a number: [+0], [-0] and [NaN] are falsy. *)
Definition truthy_number (x : number) : bool :=
  negb (PrimFloat.is_zero x || PrimFloat.is_nan x).

(** [ToBoolean] on a string: only the empty string is falsy. *)
Definition truthy_string (s : string) : bool :=
  match s with
  | EmptyString => false
  | String _ _ => true
  end.

(** ** Data model *)

Definition WAYPOINT_LIMIT : nat := 10.

Record Marker := mkMarker {
  latitude : number;
  longitude : number;
}.

Module Route.
Record t := mk {
  waypoints : list Marker;
  origin : Marker;
  destination : Marker;
}.
End Route.

(** ** Arrays written by index

    [accumulator[numChunk] = v] replaces the element when the index is
    inside the array, and otherwise extends the array up to the index,
    leaving holes in between.  A hole reads as [undefined], which is
    [None] here. *)

Abbreviation js_array A := (list (option A)).

Definition array_get {A} (a : js_array A) (i : nat) : option A :=
  mjoin (a !! i).

Definition array_set {A} (a : js_array A) (i : nat) (v : A) : js_array A :=
  if decide (i < length a) then <[i := Some v]> a
  else a ++ replicate (i - length a) None ++ [Some v].

(** [Array.prototype.reduce] with an initial value; the callback receives
    the accumulator, the element and its index. *)
Fixpoint reduce_from {A B} (f : B → A → nat → B) (l : list A) (index : nat)
    (acc : B) : B :=
  match l with
  | [] => acc
  | x :: l' => reduce_from f l' (S index) (f acc x index)
  end.

Definition reduce {A B} (f : B → A → nat → B) (l : list A) (init : B) : B :=
  reduce_from f l 0 init.

(** ** Splitting the waypoints (lines 118-150) *)

(** The callback of the [reduce] at lines 124-128:
    [accumulator[numChunk] = [].concat(accumulator[numChunk] || [], waypoint)]. *)
Definition chunk_step (accumulator : js_array (list Marker))
    (waypoint : Marker) (index : nat) : js_array (list Marker) :=
  let numChunk := index / WAYPOINT_LIMIT in
  array_set accumulator numChunk
    (default [] (array_get accumulator numChunk) ++ [waypoint]).

Definition chunckedWaypoints (waypoints : list Marker)
    : js_array (list Marker) :=
  reduce chunk_step waypoints [].

(** The body of the [for] loop at lines 133-139 for one value of [i].
    Reading outside an array, or reading a hole, gives [undefined] in the
    source, a value that none of the declared types admits; the model
    answers [None] there. *)
Definition chunk_route (chunks : js_array (list Marker))
    (origin destination : Marker) (i : nat) : option Route.t :=
  waypoints ← array_get chunks i;
  origin' ← (if decide (i = 0) then Some origin
             else prev ← array_get chunks (i - 1); prev !! (length prev - 1));
  destination' ← (if decide (i = length chunks - 1) then Some destination
                  else next ← array_get chunks (i + 1); next !! 0);
  Some (Route.mk waypoints origin' destination').

(** The routes array filled at lines 118-150.  [waypoints] is an optional
    prop: [None] is [undefined]. *)
Definition build_routes (splitWaypoints : bool)
    (waypoints : option (list Marker)) (origin destination : Marker)
    : option (list Route.t) :=
  match waypoints with
  | Some wps =>
      if splitWaypoints && bool_decide (WAYPOINT_LIMIT < length wps) then
        let chunks := chunckedWaypoints wps in
        mapM (chunk_route chunks origin destination) (seq 0 (length chunks))
      else Some [Route.mk wps origin destination]
  | None => Some [Route.mk [] origin destination]
  end.

(** ** Polyline decoding (lines 71-101) *)

(** A JavaScript string is a sequence of UTF-16 code units. *)
Abbreviation jsstring := (list Z).

Definition code_units (s : string) : jsstring :=
  (λ c, Z.of_N (N_of_ascii c)) <$> list_ascii_of_string s.

Module Polyline.
Record t := mk { points : jsstring }.
End Polyline.

Record Step := mkStep { polyline : Polyline.t }.

Section Decode.
Local Open Scope Z_scope.

Definition ToInt32 (z : Z) : Z := (z + 2 ^ 31) mod 2 ^ 32 - 2 ^ 31.

(** [x << s], [x >> s], [x | y], [x & y] and [~x]: the operands are
    converted with [ToInt32] and the shift count is taken modulo 32. *)
Definition js_shl (x s : Z) : Z := ToInt32 (Z.shiftl (ToInt32 x) (s mod 32)).
Definition js_sar (x s : Z) : Z := Z.shiftr (ToInt32 x) (s mod 32).
Definition js_or (x y : Z) : Z := Z.lor (ToInt32 x) (ToInt32 y).
Definition js_and (x y : Z) : Z := Z.land (ToInt32 x) (ToInt32 y).
Definition js_not (x : Z) : Z := Z.lnot (ToInt32 x).

(** The value of [encoded.charAt(index).charCodeAt(0) - 63]: an integer,
    or [NaN] ([None]) when [index] is past the end of the string, where
    [charAt] gives the empty string. *)
Definition char_minus_63 (encoded : jsstring) (index : nat) : option Z :=
  (λ c, c - 63) <$> encoded !! index.

(** [ToInt32] of an integer or [NaN]. *)
Definition int32_of (b : option Z) : Z := default 0 b.

(** [b >= 0x20]; a comparison with [NaN] is false. *)
Definition ge_0x20 (b : option Z) : bool :=
  match b with
  | Some z => 32 <=? z
  | None => false
  end.

(** [(result & 1) != 0 ? ~(result >> 1) : (result >> 1)] *)
Definition delta_of (result : Z) : Z :=
  if negb (js_and result 1 =? 0) then js_not (js_sar result 1)
  else js_sar result 1.

(** The number that holds an integer. *)
Definition number_of_Z (z : Z) : number :=
  if z <? 0 then PrimFloat.opp (PrimFloat.of_uint63 (Uint63.of_Z (- z)))
  else PrimFloat.of_uint63 (Uint63.of_Z z).

(** The [do ... while (b >= 0x20)] loop (lines 79-83 and 89-93); it
    answers the new [index] and [result].  [fuel] bounds the number of
    iterations; [None] means that the bound was reached. *)
Fixpoint do_while (fuel : nat) (encoded : jsstring) (index : nat)
    (shift result : Z) : option (nat * Z) :=
  match fuel with
  | O => None
  | S fuel' =>
      let b := char_minus_63 encoded index in
      let index := S index in
      let result := js_or result (js_shl (js_and (int32_of b) 31) shift) in
      let shift := shift + 5 in
      if ge_0x20 b then do_while fuel' encoded index shift result
      else Some (index, result)
  end.

(** The [while (index < len)] loop (lines 77-98). *)
Fixpoint while_loop (fuel : nat) (encoded : jsstring) (len index : nat)
    (lat lng : number) (points : list Marker) : option (list Marker) :=
  match fuel with
  | O => None
  | S fuel' =>
      if bool_decide (index < len)%nat then
        '(index, result) ← do_while fuel encoded index 0 0;
        let dlat := delta_of result in
        let lat := (lat + number_of_Z dlat)%float in
        '(index, result) ← do_while fuel encoded index 0 0;
        let dlng := delta_of result in
        let lng := (lng + number_of_Z dlng)%float in
        while_loop fuel' encoded len index lat lng
          (points ++ [mkMarker (lat / 1e5)%float (lng / 1e5)%float])
      else Some points
  end.

(** The [for (let step of t)] loop (lines 73-99). *)
Fixpoint for_of (fuel : nat) (t : list Step) (points : list Marker)
    : option (list Marker) :=
  match t with
  | [] => Some points
  | step :: t' =>
      let encoded := Polyline.points step.(polyline) in
      points ← while_loop fuel encoded (length encoded) 0 0%float 0%float
                 points;
      for_of fuel t' points
  end.

Definition decode_fuel (fuel : nat) (t : list Step)
    : option (list Marker) :=
  for_of fuel t [].

(** The number of characters of the records. *)
Definition total_length (t : list Step) : nat :=
  foldr (λ step n, (length (Polyline.points step.(polyline)) + n)%nat)
    0%nat t.

(** A number of iterations that no loop of [decode] exceeds on [t]. *)
Definition decode_bound (t : list Step) : nat := S (total_length t).

(** [decode]; the default is never used: the loops end within the bound,
    as shown below. *)
Definition decode (t : list Step) : list Marker :=
  default [] (decode_fuel (decode_bound t) t).
End Decode.

(** ** The encoded polyline format, as the specification words it

    These definitions follow the description of the format and not the
    loops above; [decode] is compared with them below. *)

Module PolylineFormat.
Local Open Scope Z_scope.

(** A character's code point minus 63 is a 6-bit chunk. *)
Definition chunk (c : Z) : Z := c - 63.

(** The low 5 bits are data, bit 5 is the continuation flag. *)
Definition data (k : Z) : Z := Z.land k 31.
Definition continues (k : Z) : bool := Z.testbit k 5.

(** The chunks are cut into runs, each closed by the first chunk whose
    continuation flag is clear; the second component keeps the chunks
    after the last closed run. *)
Fixpoint runs (chunks : list Z) : list (list Z) * list Z :=
  match chunks with
  | [] => ([], [])
  | k :: rest =>
      let '(rs, open) := runs rest in
      if continues k then
        match rs with
        | r :: rs' => ((k :: r) :: rs', open)
        | [] => ([], k :: open)
        end
      else ([k] :: rs, open)
  end.

(** A run accumulates little-endian, 5 bits per chunk. *)
Fixpoint accumulate (run : list Z) : Z :=
  match run with
  | [] => 0
  | k :: run' => data k + 32 * accumulate run'
  end.

(** [value = (result & 1) ? ~(result >> 1) : (result >> 1)] *)
Definition zigzag (result : Z) : Z :=
  if Z.testbit result 0 then Z.lnot (Z.shiftr result 1)
  else Z.shiftr result 1.

(** Latitude and longitude deltas alternate and are added to running
    totals; every pair is emitted divided by 1e5. *)
Fixpoint emit (deltas : list Z) (lat lng : number) : list Marker :=
  match deltas with
  | dlat :: dlng :: rest =>
      let lat := (lat + number_of_Z dlat)%float in
      let lng := (lng + number_of_Z dlng)%float in
      mkMarker (lat / 1e5)%float (lng / 1e5)%float :: emit rest lat lng
  | _ => []
  end.

Definition deltas (encoded : jsstring) : list Z :=
  (λ run, zigzag (accumulate run)) <$> (runs (chunk <$> encoded)).1.

Definition decode_string (encoded : jsstring) : list Marker :=
  emit (deltas encoded) 0%float 0%float.

(** Records are decoded independently and their points concatenated. *)
Definition decode_records (t : list Step) : list Marker :=
  concat ((λ step, decode_string (Polyline.points step.(polyline))) <$> t).

(** A well-formed string: every character is in the range of the
    format (63 to 126, so that its chunk has 6 bits), the last run is
    closed, the runs come in latitude and longitude pairs, and every
    accumulated integer fits the 31 value bits of a signed 32-bit
    integer. *)
Definition well_formed (encoded : jsstring) : bool :=
  forallb (λ c, (63 <=? c) && (c <=? 126)) encoded
  && bool_decide ((runs (chunk <$> encoded)).2 = [])
  && Nat.even (length (runs (chunk <$> encoded)).1)
  && forallb (λ run, accumulate run <? 2 ^ 31) (runs (chunk <$> encoded)).1.
End PolylineFormat.

(** ** The provider's response

    The JSON schema is taken as given: [status] and [error_message] may be
    absent, every route has its legs and its overview polyline, [fare] and
    [waypoint_order] are optional. *)

Record Fare := mkFare {
  currency : string;
  value : number;
  text : string;
}.

Module Leg.
Record t := mk {
  distance : number;                     (* distance.value *)
  duration : number;                     (* duration.value *)
  duration_in_traffic : option number;   (* duration_in_traffic.value *)
  steps : list Step;
}.
End Leg.

Module DirectionsRoute.
Record t := mk {
  legs : list Leg.t;
  overview_polyline : Polyline.t;
  fare : option Fare;
  waypoint_order : option (list Z);
}.
End DirectionsRoute.

Module Response.
Record t := mk {
  status : option string;
  error_message : option string;
  routes : list DirectionsRoute.t;
}.
End Response.

(** What [fetchRoute] resolves with (lines 296-316). *)
Module Segment.
Record t := mk {
  distance : number;
  duration : number;
  coordinates : list Marker;
  fare : option Fare;
  waypointOrder : option (list Z);
  legs : list Leg.t;
}.
End Segment.

(** The type [Result] of the source (lines 17-24), with the element types
    that the fold at lines 195-220 really stores. *)
Module Result.
Record t := mk {
  coordinates : list Marker;
  distance : number;
  duration : number;
  fares : list (option Fare);
  legs : list Leg.t;
  waypointOrder : list (option (list Z));
}.
End Result.

Inductive precision := low | high.

(** A settled promise. *)
Inductive outcome (E A : Type) :=
  | Resolved (a : A)
  | Rejected (e : E).
Arguments Resolved {E A} a.
Arguments Rejected {E A} e.

(** What the handler at lines 257-321 rejects or throws with. *)
Inductive reason :=
  | ReasonString (s : string)
  | ReasonUndefined
  | ReasonTypeError.

(** What the transport answers to one request: a parsed body, or a failure
    of [fetch] or of [response.json()], given by the text that the failure
    shows in a template literal. *)
Inductive reply :=
  | Body (json : Response.t)
  | TransportFailure (err : string).

(** ** Fetching one route (lines 232-325) *)

(** The metrics of one route, lines 297-315 (and 271-289). *)
Definition route_result (precision : precision) (route : DirectionsRoute.t)
    : Segment.t :=
  Segment.mk
    (reduce (λ carry curr _, carry + Leg.distance curr)
       (DirectionsRoute.legs route) 0 / 1000)%float
    (reduce (λ carry curr _,
         carry + match Leg.duration_in_traffic curr with
                 | Some in_traffic => in_traffic
                 | None => Leg.duration curr
                 end)
       (DirectionsRoute.legs route) 0 / 60)%float
    (match precision with
     | low => decode [mkStep (DirectionsRoute.overview_polyline route)]
     | high =>
         reduce (λ carry curr _, carry ++ decode (Leg.steps curr))
           (DirectionsRoute.legs route) []
     end)
    (DirectionsRoute.fare route)
    (DirectionsRoute.waypoint_order route)
    (DirectionsRoute.legs route).

(** [a || b] where [a] is an optional string. *)
Definition or_string (a : option string) (b : string) : string :=
  match a with
  | Some s => if truthy_string s then s else b
  | None => b
  end.

(** The handler of the parsed body, lines 257-321.  [filterRoute] answers a
    number: [Some i] when that number is the array index [i], [None]
    otherwise, and then [json.routes[selectedRoute]] is [undefined]. *)
Definition fetchRoute_then
    (filterRoute : option (list Segment.t → option nat))
    (precision : precision) (json : Response.t)
    : outcome reason Segment.t :=
  if negb (bool_decide (Response.status json = Some "OK"%string)) then
    let errorMessage :=
      or_string (Response.error_message json)
        (or_string (Response.status json) "Unknown error") in
    Rejected (ReasonString errorMessage)
  else
    match Response.routes json with
    | route :: _ =>
        let route :=
          match filterRoute with
          | Some filterRoute =>
              let routes := route_result precision <$> Response.routes json in
              selectedRoute ← filterRoute routes;
              Response.routes json !! selectedRoute
          | None => Some route
          end in
        match route with
        | Some route => Resolved (route_result precision route)
        | None => Rejected ReasonTypeError
        end
    | [] => Rejected ReasonUndefined
    end.

Section Strings.
Local Open Scope string_scope.

(** What the engine supplies: the text of a number, the lower-case form
    of a string, and the text of the [TypeError] raised by reading a
    property of [undefined]. *)
Variable number_to_string : number → string.
Variable toLowerCase : string → string.
Variable type_error_text : string.

Definition reason_to_string (r : reason) : string :=
  match r with
  | ReasonString s => s
  | ReasonUndefined => "undefined"
  | ReasonTypeError => type_error_text
  end.

(** Lines 235-253. *)
Definition request_url (directionsServiceBaseUrl origin waypoints
    destination apikey mode language region timePrecision : string)
    (channel : option string) (avoidTolls avoidHighways avoidFerries : bool)
    : string :=
  let url := directionsServiceBaseUrl in
  let url := url ++ "?origin=" ++ origin ++ "&waypoints=" ++ waypoints
               ++ "&destination=" ++ destination ++ "&key=" ++ apikey
               ++ "&mode=" ++ toLowerCase mode ++ "&language=" ++ language
               ++ "&region=" ++ region in
  let url := if truthy_string timePrecision
             then url ++ "&departure_time=" ++ timePrecision else url in
  let url := match channel with
             | Some channel =>
                 if truthy_string channel then url ++ "&channel=" ++ channel
                 else url
             | None => url
             end in
  let url := if avoidTolls then url ++ "&avoid=tolls" else url in
  let url := if avoidHighways then url ++ "&avoid=highways" else url in
  let url := if avoidFerries then url ++ "&avoid=ferries" else url in
  url.

(** The promise that [fetchRoute] returns, given the transport's answer
    to its request (lines 255-324). *)
Definition fetchRoute
    (filterRoute : option (list Segment.t → option nat))
    (precision : precision) (answer : reply) : outcome string Segment.t :=
  match answer with
  | TransportFailure err =>
      Rejected ("Error on GMAPS route request: " ++ err)
  | Body json =>
      match fetchRoute_then filterRoute precision json with
      | Resolved result => Resolved result
      | Rejected err =>
          Rejected ("Error on GMAPS route request: " ++ reason_to_string err)
      end
  end.

(** ** Request parameters of one route (lines 154-174) *)

(** [`${m.latitude},${m.longitude}`] *)
Definition coordinate_string (m : Marker) : string :=
  number_to_string (latitude m) ++ "," ++ number_to_string (longitude m).

(** An origin or destination, lines 158-164. *)
Definition endpoint_string (m : Marker) : string :=
  if truthy_number (latitude m) && truthy_number (longitude m)
  then coordinate_string m else "".

(** The callback of the [map] at line 168: a string, or the waypoint
    itself. *)
Definition waypoint_entry (waypoint : Marker) : string + Marker :=
  if truthy_number (latitude waypoint) && truthy_number (longitude waypoint)
  then inl (coordinate_string waypoint) else inr waypoint.

(** [ToString] of an array element: a string is itself and a plain
    object is ["[object Object]"]. *)
Definition entry_to_string (e : string + Marker) : string :=
  match e with
  | inl s => s
  | inr _ => "[object Object]"
  end.

(** [Array.prototype.join]. *)
Definition join {A} (to_string : A → string) (sep : string) (l : list A)
    : string :=
  String.concat sep (to_string <$> l).

(** Lines 165-174.  An array in a template literal is joined with
    commas. *)
Definition waypoints_string (optimizeWaypoints : bool)
    (waypoints : list Marker) : string :=
  let waypointsString :=
    join entry_to_string "|" (waypoint_entry <$> waypoints) in
  if optimizeWaypoints
  then "optimize:true|" ++ join (λ _ : Marker, "[object Object]") "," waypoints
  else waypointsString.
End Strings.

(** ** Aggregation (lines 195-220) *)

Definition aggregate_step (acc : Result.t) (segment : Segment.t) (_ : nat)
    : Result.t :=
  Result.mk
    (Result.coordinates acc ++ Segment.coordinates segment)
    (Result.distance acc + Segment.distance segment)%float
    (Result.duration acc + Segment.duration segment)%float
    (Result.fares acc ++ [Segment.fare segment])
    (Segment.legs segment)
    (Result.waypointOrder acc ++ [Segment.waypointOrder segment]).

Definition aggregate (results : list Segment.t) : Result.t :=
  reduce aggregate_step results (Result.mk [] 0%float 0%float [] [] []).

(** ** [Promise.all]

    The promises are given by their outcomes, in array order, and
    [schedule] lists the indices in the order in which they settle; an index
    that does not occur never settles.  The first rejection rejects the
    whole, and the whole is fulfilled, with the values in array order, once
    every promise is fulfilled.  [None]: still pending when the schedule
    ends. *)

Definition fulfilled_values {E A} (promises : list (outcome E A)) : list A :=
  omap (λ p, match p with Resolved a => Some a | Rejected _ => None end)
    promises.

Fixpoint Promise_all_from {E A} (promises : list (outcome E A))
    (schedule fulfilled : list nat) : option (outcome E (list A)) :=
  if bool_decide (Forall (λ i, i ∈ fulfilled) (seq 0 (length promises)))
  then Some (Resolved (fulfilled_values promises))
  else
    match schedule with
    | [] => None
    | i :: schedule' =>
        match promises !! i with
        | Some (Rejected e) => Some (Rejected e)
        | Some (Resolved _) =>
            Promise_all_from promises schedule' (i :: fulfilled)
        | None => Promise_all_from promises schedule' fulfilled
        end
    end.

Definition Promise_all {E A} (promises : list (outcome E A))
    (schedule : list nat) : option (outcome E (list A)) :=
  Promise_all_from promises schedule [].

(** The first failure that is observed: the rejection of the first index
    of the schedule whose promise is rejected. *)
Definition first_failure {E A} (promises : list (outcome E A))
    (schedule : list nat) : option E :=
  head (omap (λ i, match promises !! i with
                   | Some (Rejected e) => Some e
                   | _ => None
                   end) schedule).

(** ** The component (lines 40-230) *)

Module Props.
Record t := mk {
  origin : Marker;
  destination : Marker;
  apikey : string;
  region : string;
  waypoints : option (list Marker);
  (* whether the observer is supplied *)
  onStart : bool;
  onReady : bool;
  onError : bool;
  filterRoute : option (list Segment.t → option nat);
  mode : string;
  language : string;
  optimizeWaypoints : bool;
  splitWaypoints : bool;
  directionsServiceBaseUrl : string;
  precision : precision;
  timePrecision : string;
  channel : option string;
  avoidTolls : bool;
  avoidHighways : bool;
  avoidFerries : bool;
}.
End Props.

(** The three [useState] cells; [None] is [null]. *)
Module State.
Record t := mk {
  coordinates : option (list Marker);
  distance : option number;
  duration : option number;
}.
End State.

(** What a run does that can be seen from outside, in order. *)
Inductive event :=
  | ConsoleWarn (message : string)
  | OnStart (origin destination waypoints : string)
  | Fetch (url : string)
  | OnReady (result : Result.t)
  | OnError (error : string).

Section Component.
Local Open Scope string_scope.

Variable number_to_string : number → string.
Variable toLowerCase : string → string.
Variable type_error_text : string.

(** The answer of the transport to the request of the route at [index]
    for [url]. *)
Variable transport : nat → string → reply.

Variable props : Props.t.

(** Lines 65-69. *)
Definition resetState (_ : State.t) : State.t := State.mk None None None.

Definition setCoordinates (coordinates : list Marker) (st : State.t)
    : State.t :=
  State.mk (Some coordinates) (State.distance st) (State.duration st).

(** [observer && observer(...)] *)
Definition notify (observer : bool) (e : event) : list event :=
  if observer then [e] else [].

(** The callback of [routes.map] (lines 153-193): the calls it makes
    and the promise it returns. *)
Definition request (index : nat) (route : Route.t)
    : list event * outcome string Segment.t :=
  let originString :=
    endpoint_string number_to_string (Route.origin route) in
  let destinationString :=
    endpoint_string number_to_string (Route.destination route) in
  let waypointsString :=
    waypoints_string number_to_string (Props.optimizeWaypoints props)
      (Route.waypoints route) in
  let timePrecisionString :=
    if bool_decide (Props.timePrecision props = "none") then ""
    else Props.timePrecision props in
  let url :=
    request_url toLowerCase (Props.directionsServiceBaseUrl props)
      originString waypointsString destinationString (Props.apikey props)
      (Props.mode props) (Props.language props) (Props.region props)
      timePrecisionString (Props.channel props) (Props.avoidTolls props)
      (Props.avoidHighways props) (Props.avoidFerries props) in
  (((if bool_decide (index = 0%nat)
     then notify (Props.onStart props)
            (OnStart originString destinationString waypointsString)
     else []) ++ [Fetch url])%list,
   fetchRoute type_error_text (Props.filterRoute props)
     (Props.precision props) (transport index url)).

(** Lines 193-229: what follows the settling of [Promise.all]. *)
Definition settle (st : State.t)
    (all : option (outcome string (list Segment.t)))
    : State.t * list event :=
  match all with
  | Some (Resolved results) =>
      let result := aggregate results in
      (setCoordinates (Result.coordinates result) st,
       notify (Props.onReady props) (OnReady result))
  | Some (Rejected errorMessage) =>
      (resetState st,
       ConsoleWarn ("MapDirections Error: " ++ errorMessage)
         :: notify (Props.onError props) (OnError errorMessage))
  | None => (st, [])
  end.

(** Lines 103-230.  [None]: the routes could not be built (see
    [chunk_route]); [build_routes_total] shows that this does not
    happen.  The test of [origin] and [destination] at line 110 always
    passes for the objects that the props are declared to be. *)
Definition fetchAndRenderRoute (schedule : list nat) (st : State.t)
    : option (State.t * list event) :=
  if negb (truthy_string (Props.apikey props)) then
    Some (st, [ConsoleWarn "MapDirections Error: Missing API Key"])
  else
    routes ← build_routes (Props.splitWaypoints props)
               (Props.waypoints props) (Props.origin props)
               (Props.destination props);
    let requests := imap request routes in
    let '(st', events) :=
      settle st (Promise_all (snd <$> requests) schedule) in
    Some (st', (concat (fst <$> requests) ++ events)%list).

(** The effect at lines 53-56. *)
Definition effect (schedule : list nat) (st : State.t)
    : option (State.t * list event) :=
  if truthy_number (latitude (Props.origin props))
     && truthy_number (longitude (Props.origin props))
     && truthy_number (latitude (Props.destination props))
     && truthy_number (longitude (Props.destination props))
     && truthy_string (Props.apikey props)
  then fetchAndRenderRoute schedule st
  else Some (st, []).
End Component.

(** ** Definitions used by the statements below *)

(** The [i]-th slice of [WAYPOINT_LIMIT] consecutive waypoints. *)
Definition slice (wps : list Marker) (i : nat) : list Marker :=
  take WAYPOINT_LIMIT (drop (i * WAYPOINT_LIMIT) wps).

Definition slices (wps : list Marker) : list (list Marker) :=
  slice wps <$> seq 0 ((length wps + (WAYPOINT_LIMIT - 1)) / WAYPOINT_LIMIT).

(** The route that the loop at lines 133-139 builds for slice [i]. *)
Definition slice_route (wps : list Marker) (origin destination : Marker)
    (i : nat) : Route.t :=
  Route.mk (slice wps i)
    (if decide (i = 0) then origin
     else default origin (last (slice wps (i - 1))))
    (if decide (i = length (slices wps) - 1) then destination
     else default destination (head (slice wps (i + 1)))).

(** [ceil (n / d)] *)
Definition ceil_div (n d : nat) : nat :=
  n / d + (if decide (n mod d = 0) then 0 else 1).

(** A run of chunks that is closed by its last chunk and by no other. *)
Inductive closed_run : list Z → Prop :=
  | closed_last k :
      PolylineFormat.continues k = false → closed_run [k]
  | closed_cons k r :
      PolylineFormat.continues k = true → closed_run r → closed_run (k :: r).

Definition valid_run (r : list Z) : Prop :=
  closed_run r ∧ Forall (λ k, 0 ≤ k < 64)%Z r
  ∧ (PolylineFormat.accumulate r < 2 ^ 31)%Z.

(** The sum of a sequence of numbers, added from the left to 0 as the fold
    at lines 195-220 does. *)
Definition sum_numbers (l : list number) : number :=
  foldl PrimFloat.add 0%float l.

(** The calls of each kind among the events of a run. *)
Definition ready_calls (events : list event) : list Result.t :=
  omap (λ e, match e with OnReady result => Some result | _ => None end)
    events.

Definition error_calls (events : list event) : list string :=
  omap (λ e, match e with OnError error => Some error | _ => None end) events.

Definition is_request_event (e : event) : Prop :=
  match e with
  | OnStart _ _ _ | Fetch _ => True
  | _ => False
  end.

(** Sample waypoints for the examples. *)
Definition sample_marker (i : nat) : Marker :=
  mkMarker (number_of_Z (Z.of_nat i)) (number_of_Z (- Z.of_nat i)).

Definition sample_waypoints (n : nat) : list Marker :=
  sample_marker <$> seq 1 n.

(** Sample records: the reference string of the format, and strings with
    characters outside the format and a run that is not closed. *)
Definition reference_steps : list Step :=
  [mkStep (Polyline.mk (code_units "_p~iF~ps|U_ulLnnqC_mqNvxq`@"))].

Definition malformed_steps : list Step :=
  [mkStep (Polyline.mk [0; 200; 65535; 95]%Z);
   mkStep (Polyline.mk [95; 95; 95; 95]%Z)].

(** A sample run: [n] waypoints, split into routes; the transport fails
    on the second request and answers one route to the others. *)
Definition sample_props (origin : Marker) (n : nat) : Props.t :=
  Props.mk origin (sample_marker 100) "key" "" (Some (sample_waypoints n))
    true true true None "DRIVING" "en" false true
    "https://maps.googleapis.com/maps/api/directions/json" low "none" None
    false false false.

Definition sample_response : Response.t :=
  Response.mk (Some "OK"%string) None
    [DirectionsRoute.mk [Leg.mk 1000 60 None reference_steps]
       (Polyline.mk (code_units "_p~iF~ps|U_ulLnnqC_mqNvxq`@")) None None].

Definition sample_transport (index : nat) (url : string) : reply :=
  if decide (index = 1) then TransportFailure "TypeError: Network request failed"
  else Body sample_response.

(** A stand-in for the engine's text of a number. *)
Definition sample_number_to_string (x : number) : string := "1".

(** The routes of a run and the promises of their fetches. *)
Definition routes_of (props : Props.t) : list Route.t :=
  default []
    (build_routes (Props.splitWaypoints props) (Props.waypoints props)
       (Props.origin props) (Props.destination props)).

Definition requests (number_to_string : number → string)
    (toLowerCase : string → string) (type_error_text : string)
    (transport : nat → string → reply) (props : Props.t)
    : list (list event * outcome string Segment.t) :=
  imap (request number_to_string toLowerCase type_error_text transport props)
    (routes_of props).

Definition segment_promises (number_to_string : number → string)
    (toLowerCase : string → string) (type_error_text : string)
    (transport : nat → string → reply) (props : Props.t)
    : list (outcome string Segment.t) :=
  snd <$> requests number_to_string toLowerCase type_error_text transport
            props.

(** * Properties *)

(** ** Splitting the waypoints *)

Ltac divmod := unfold WAYPOINT_LIMIT in *; zify; Z.div_mod_to_equations; lia.

Lemma length_slices wps :
  length (slices wps) = (length wps + (WAYPOINT_LIMIT - 1)) / WAYPOINT_LIMIT.
Proof. unfold slices. by rewrite length_fmap, length_seq. Qed.

Lemma lookup_slices wps i :
  i < length (slices wps) → slices wps !! i = Some (slice wps i).
Proof.
  rewrite length_slices. intros Hi. unfold slices.
  rewrite list_lookup_fmap, lookup_seq_lt by done. done.
Qed.

Lemma length_slice wps i :
  length (slice wps i) = min WAYPOINT_LIMIT (length wps - i * WAYPOINT_LIMIT).
Proof. unfold slice. by rewrite length_take, length_drop. Qed.

Lemma slice_snoc_full wps x i :
  (i + 1) * WAYPOINT_LIMIT ≤ length wps → slice (wps ++ [x]) i = slice wps i.
Proof.
  intros Hi. unfold slice.
  rewrite drop_app_le by lia.
  rewrite take_app_le; [done|]. rewrite length_drop. lia.
Qed.

Lemma array_get_Some {A} (l : list A) i : array_get (Some <$> l) i = l !! i.
Proof.
  unfold array_get. rewrite list_lookup_fmap. by destruct (l !! i).
Qed.

Lemma slice_snoc_last wps x :
  slice (wps ++ [x]) (length wps / WAYPOINT_LIMIT)
  = default [] (array_get (Some <$> slices wps) (length wps / WAYPOINT_LIMIT))
    ++ [x].
Proof.
  rewrite array_get_Some.
  destruct (decide (length wps / WAYPOINT_LIMIT < length (slices wps)))
    as [Hlt|Hge].
  - rewrite lookup_slices by done. cbv [default from_option id]. unfold slice.
    rewrite drop_app_le by divmod.
    rewrite length_slices in Hlt.
    rewrite (take_ge (drop _ wps)) by (rewrite length_drop; divmod).
    apply take_ge. rewrite length_app, length_drop. cbn [length]. divmod.
  - rewrite lookup_ge_None_2 by lia. cbv [default from_option id]. unfold slice.
    rewrite length_slices in Hge.
    rewrite drop_app_le by divmod.
    rewrite drop_ge by divmod. done.
Qed.

Lemma chunk_step_slices wps x :
  chunk_step (Some <$> slices wps) x (length wps)
  = Some <$> slices (wps ++ [x]).
Proof.
  unfold chunk_step. rewrite <- slice_snoc_last.
  apply list_eq. intros i.
  assert (Hlen : length (slices (wps ++ [x]))
                 = S (length wps / WAYPOINT_LIMIT)).
  { rewrite length_slices, length_app. cbn [length]. divmod. }
  unfold array_set. rewrite length_fmap.
  rewrite (list_lookup_fmap _ (slices (wps ++ [x]))).
  destruct (decide (i < S (length wps / WAYPOINT_LIMIT))) as [Hi|Hi].
  2:{ rewrite (lookup_ge_None_2 (slices _)) by lia.
      apply lookup_ge_None_2.
      case_decide.
      - rewrite length_insert, length_fmap, length_slices. divmod.
      - rewrite !length_app, length_replicate, length_fmap. cbn [length]. lia. }
  rewrite lookup_slices by lia.
  destruct (decide (i = length wps / WAYPOINT_LIMIT)) as [->|Hne].
  - case_decide.
    + rewrite list_lookup_insert_eq; [done|]. by rewrite length_fmap.
    + assert (length (slices wps) = length wps / WAYPOINT_LIMIT) as Hl.
      { rewrite length_slices in *. divmod. }
      rewrite Hl, Nat.sub_diag. cbn [replicate app].
      rewrite lookup_app_r by (rewrite length_fmap; lia).
      rewrite length_fmap, Hl, Nat.sub_diag. done.
  - assert (i < length wps / WAYPOINT_LIMIT) as Hi' by lia.
    assert (i < length (slices wps)) as Hi''.
    { rewrite length_slices. divmod. }
    rewrite (slice_snoc_full wps x i) by divmod.
    case_decide.
    + rewrite list_lookup_insert_ne by done.
      rewrite list_lookup_fmap, lookup_slices by done. done.
    + rewrite lookup_app_l by (rewrite length_fmap; done).
      rewrite list_lookup_fmap, lookup_slices by done. done.
Qed.

Lemma reduce_from_chunk_step l : ∀ wps,
  reduce_from chunk_step l (length wps) (Some <$> slices wps)
  = Some <$> slices (wps ++ l).
Proof.
  induction l as [|x l IH]; intros wps; cbn [reduce_from].
  - by rewrite app_nil_r.
  - rewrite chunk_step_slices.
    replace (S (length wps)) with (length (wps ++ [x]))
      by (rewrite length_app; cbn [length]; lia).
    rewrite IH. by rewrite <- app_assoc.
Qed.

Lemma chunckedWaypoints_slices wps :
  chunckedWaypoints wps = Some <$> slices wps.
Proof.
  unfold chunckedWaypoints, reduce.
  apply (reduce_from_chunk_step wps []).
Qed.

Lemma concat_slice_prefix wps n :
  concat (slice wps <$> seq 0 n) = take (n * WAYPOINT_LIMIT) wps.
Proof.
  induction n as [|n IH].
  - done.
  - rewrite seq_S, fmap_app, concat_app, IH. cbn [fmap list_fmap concat].
    rewrite app_nil_r. unfold slice. rewrite take_take_drop.
    f_equal. lia.
Qed.

Lemma concat_slices wps : concat (slices wps) = wps.
Proof.
  unfold slices. rewrite concat_slice_prefix. apply take_ge. divmod.
Qed.

Lemma mapM_total {A B} (f : A → option B) (g : A → B) (l : list A) :
  (∀ x, x ∈ l → f x = Some (g x)) → mapM f l = Some (g <$> l).
Proof.
  induction l as [|x l IH]; intros Hf; [done|].
  cbn [mapM]. rewrite Hf by left.
  rewrite IH by (intros y Hy; apply Hf; by right). done.
Qed.

Lemma slice_nonempty wps i :
  i < length (slices wps) → 0 < length (slice wps i).
Proof. rewrite length_slices, length_slice. divmod. Qed.

Lemma chunk_route_slices wps origin destination i :
  i < length (slices wps) →
  chunk_route (Some <$> slices wps) origin destination i
  = Some (slice_route wps origin destination i).
Proof.
  intros Hi. unfold chunk_route, slice_route.
  rewrite length_fmap, !array_get_Some, (lookup_slices wps i) by done.
  cbn [mbind option_bind].
  assert (Horigin :
    (if decide (i = 0) then Some origin
     else slices wps !! (i - 1) ≫= λ prev, prev !! (length prev - 1))
    = Some (if decide (i = 0) then origin
            else default origin (last (slice wps (i - 1))))).
  { destruct (decide (i = 0)) as [|Hi0]; [done|].
    rewrite lookup_slices by lia. cbn [mbind option_bind].
    rewrite Nat.sub_1_r, <- last_lookup.
    destruct (last (slice wps (i - 1))) eqn:Hlast; [done|].
    apply last_None in Hlast.
    pose proof (slice_nonempty wps (i - 1) ltac:(lia)) as Hpos.
    rewrite Hlast in Hpos. cbn in Hpos. lia. }
  rewrite Horigin. cbn [mbind option_bind].
  destruct (decide (i = length (slices wps) - 1)) as [|Hlast]; [done|].
  rewrite lookup_slices by lia. cbn [mbind option_bind].
  rewrite <- head_lookup.
  destruct (head (slice wps (i + 1))) eqn:Hhead; [done|].
  apply head_None in Hhead.
  pose proof (slice_nonempty wps (i + 1) ltac:(lia)) as Hpos.
  rewrite Hhead in Hpos. cbn in Hpos. lia.
Qed.

Lemma build_routes_split wps origin destination :
  WAYPOINT_LIMIT < length wps →
  build_routes true (Some wps) origin destination
  = Some (slice_route wps origin destination
            <$> seq 0 (length (slices wps))).
Proof.
  intros Hn. unfold build_routes.
  rewrite bool_decide_eq_true_2 by done. cbn [andb].
  rewrite chunckedWaypoints_slices, length_fmap.
  apply mapM_total. intros i Hi.
  apply chunk_route_slices. apply elem_of_seq in Hi. lia.
Qed.

Lemma build_routes_single split wps origin destination :
  split = false ∨ length wps ≤ WAYPOINT_LIMIT →
  build_routes split (Some wps) origin destination
  = Some [Route.mk wps origin destination].
Proof.
  intros [->|Hn]; unfold build_routes; [done|].
  rewrite bool_decide_eq_false_2 by lia. by rewrite andb_false_r.
Qed.

Lemma length_slices_ceil wps :
  length (slices wps) = ceil_div (length wps) WAYPOINT_LIMIT.
Proof. rewrite length_slices. unfold ceil_div. case_decide; divmod. Qed.

(** C1: with splitting enabled and more than [WAYPOINT_LIMIT] waypoints,
    the routes are [ceil (n / WAYPOINT_LIMIT)] many, the waypoints of route
    [i] are the [i]-th slice of [WAYPOINT_LIMIT] consecutive waypoints (the
    last slice may be shorter), and the slices concatenated in route order
    are the waypoints; with splitting disabled or at most [WAYPOINT_LIMIT]
    waypoints there is one route, with all the waypoints and the original
    origin and destination. *)
Theorem chunk_coverage (split : bool) (wps : list Marker)
    (origin destination : Marker) :
  (split = true ∧ WAYPOINT_LIMIT < length wps →
   ∃ routes,
     build_routes split (Some wps) origin destination = Some routes
     ∧ length routes = ceil_div (length wps) WAYPOINT_LIMIT
     ∧ (∀ i route, routes !! i = Some route →
          Route.waypoints route
          = take WAYPOINT_LIMIT (drop (i * WAYPOINT_LIMIT) wps)
          ∧ length (Route.waypoints route) ≤ WAYPOINT_LIMIT
          ∧ (i + 1 < length routes →
             length (Route.waypoints route) = WAYPOINT_LIMIT))
     ∧ concat (Route.waypoints <$> routes) = wps)
  ∧ (split = false ∨ length wps ≤ WAYPOINT_LIMIT →
     build_routes split (Some wps) origin destination
     = Some [Route.mk wps origin destination]).
Proof.
  split; [|apply build_routes_single].
  intros [-> Hn]. eexists. split; [by apply build_routes_split|].
  rewrite length_fmap, length_seq. split; [apply length_slices_ceil|].
  split.
  - intros i route Hroute.
    apply list_lookup_fmap_Some in Hroute as (j & -> & Hj).
    apply lookup_seq in Hj as [-> Hj]. cbn [Route.waypoints slice_route].
    split; [done|]. rewrite length_slice. split; [lia|].
    rewrite length_slices. divmod.
  - rewrite <- list_fmap_compose.
    etransitivity; [|apply concat_slices]. f_equal.
    rewrite length_slices. reflexivity.
Qed.

Lemma build_routes_cases split wps origin destination routes :
  build_routes split wps origin destination = Some routes →
  (∃ l, wps = Some l ∧ WAYPOINT_LIMIT < length l
        ∧ routes = slice_route l origin destination
                     <$> seq 0 (length (slices l)))
  ∨ (∃ l, routes = [Route.mk l origin destination]).
Proof.
  destruct wps as [l|]; [|intros [= <-]; right; by eexists].
  destruct split; [|intros [= <-]; right; by eexists].
  destruct (decide (WAYPOINT_LIMIT < length l)) as [Hn|Hn].
  - rewrite build_routes_split by done. intros [= <-]. left. by exists l.
  - rewrite build_routes_single by (right; lia).
    intros [= <-]. right. by eexists.
Qed.

Lemma lookup_slice_routes l origin destination i route :
  (slice_route l origin destination <$> seq 0 (length (slices l))) !! i
  = Some route →
  i < length (slices l) ∧ route = slice_route l origin destination i.
Proof.
  intros (j & -> & Hj)%list_lookup_fmap_Some.
  by apply lookup_seq in Hj as [-> Hj].
Qed.

(** C2: the origin of every route but the first is the last waypoint of
    the route before it, the destination of every route but the last is
    the first waypoint of the route after it (so both hold for a route that
    is neither first nor last), the first route starts at the original
    origin and the last route ends at the original destination. *)
Theorem chunk_boundaries (split : bool) (wps : option (list Marker))
    (origin destination : Marker) (routes : list Route.t) :
  build_routes split wps origin destination = Some routes →
  (∀ i prev route,
     0 < i → routes !! (i - 1) = Some prev → routes !! i = Some route →
     last (Route.waypoints prev) = Some (Route.origin route))
  ∧ (∀ i route next,
       routes !! i = Some route → routes !! (i + 1) = Some next →
       head (Route.waypoints next) = Some (Route.destination route))
  ∧ Route.origin <$> head routes = Some origin
  ∧ Route.destination <$> last routes = Some destination.
Proof.
  intros [(l & -> & Hn & ->)|(l & ->)]%build_routes_cases.
  - assert (0 < length (slices l)) as Hpos
      by (rewrite length_slices; divmod).
    repeat split.
    + intros i prev route Hi
        [Hprev ->]%lookup_slice_routes [Hroute ->]%lookup_slice_routes.
      cbn [Route.waypoints Route.origin slice_route].
      rewrite decide_False by lia.
      pose proof (slice_nonempty l (i - 1) Hprev) as Hlen.
      destruct (slice l (i - 1)) as [|x s] using rev_ind;
        [cbn in Hlen; lia|].
      by rewrite last_snoc.
    + intros i route next
        [Hroute ->]%lookup_slice_routes [Hnext ->]%lookup_slice_routes.
      cbn [Route.waypoints Route.destination slice_route].
      rewrite decide_False by lia.
      pose proof (slice_nonempty l (i + 1) Hnext) as Hlen.
      destruct (slice l (i + 1)); [cbn in Hlen; lia|done].
    + destruct (length (slices l)) as [|n]; [lia|]. done.
    + rewrite last_lookup, length_fmap, length_seq.
      rewrite list_lookup_fmap, lookup_seq_lt by lia.
      cbn [fmap option_fmap option_map Route.destination slice_route].
      rewrite decide_True by lia. done.
  - repeat split; try done.
    + intros i prev route Hi _ Hroute.
      apply lookup_lt_Some in Hroute. cbn in Hroute. lia.
    + intros i route next _ Hnext.
      apply lookup_lt_Some in Hnext. cbn in Hnext. lia.
Qed.

Lemma build_routes_total split wps origin destination :
  ∃ routes, build_routes split wps origin destination = Some routes.
Proof.
  destruct wps as [l|]; [|by eexists].
  destruct split; [|by eexists].
  destruct (decide (WAYPOINT_LIMIT < length l)) as [Hn|Hn].
  - rewrite build_routes_split by done. by eexists.
  - rewrite build_routes_single by (right; lia). by eexists.
Qed.

Lemma chunk_coverage_witness :
  (∃ routes,
     build_routes true (Some (sample_waypoints 23)) (sample_marker 0)
       (sample_marker 24) = Some routes
     ∧ length routes = 3
     ∧ concat (Route.waypoints <$> routes) = sample_waypoints 23)
  ∧ build_routes true (Some (sample_waypoints 10)) (sample_marker 0)
      (sample_marker 11)
    = Some [Route.mk (sample_waypoints 10) (sample_marker 0)
              (sample_marker 11)].
Proof.
  split.
  - destruct (proj1 (chunk_coverage true (sample_waypoints 23)
                       (sample_marker 0) (sample_marker 24)))
      as (routes & Hroutes & Hlength & _ & Hconcat).
    + split; [reflexivity|vm_compute; lia].
    + exists routes. repeat split; assumption.
  - apply (proj2 (chunk_coverage true (sample_waypoints 10)
                    (sample_marker 0) (sample_marker 11))).
    right. vm_compute. lia.
Defined.

Lemma chunk_boundaries_witness :
  ∃ first second,
    build_routes true (Some (sample_waypoints 12)) (sample_marker 0)
      (sample_marker 13) = Some [first; second]
    ∧ last (Route.waypoints first) = Some (Route.origin second)
    ∧ head (Route.waypoints second) = Some (Route.destination first)
    ∧ Route.origin first = sample_marker 0
    ∧ Route.destination second = sample_marker 13.
Proof.
  eexists _, _. split; [reflexivity|].
  destruct (chunk_boundaries true (Some (sample_waypoints 12))
              (sample_marker 0) (sample_marker 13) _ eq_refl)
    as (Horigin & Hdestination & Hfirst & Hlast).
  split; [exact (Horigin 1 _ _ (le_n 1) eq_refl eq_refl)|].
  split; [exact (Hdestination 0 _ _ eq_refl eq_refl)|].
  split; [exact (inj Some _ _ Hfirst)|exact (inj Some _ _ Hlast)].
Defined.

(** ** Termination of the loops of [decode] *)

Lemma do_while_terminates fuel encoded : ∀ index shift result,
  length encoded - index < fuel →
  ∃ index' result',
    do_while fuel encoded index shift result = Some (index', result')
    ∧ index < index'.
Proof.
  induction fuel as [|fuel IH]; intros index shift result Hfuel; [lia|].
  cbn [do_while]. unfold char_minus_63.
  destruct (encoded !! index) as [c|] eqn:Hc; cbn [fmap option_fmap option_map ge_0x20].
  - destruct (32 <=? c - 63)%Z.
    + apply lookup_lt_Some in Hc.
      destruct (IH (S index) (shift + 5)%Z
                  (js_or result (js_shl (js_and (int32_of (Some (c - 63)%Z)) 31) shift)))
        as (index' & result' & -> & Hlt); [lia|].
      exists index', result'. split; [done|lia].
    + eexists _, _. split; [done|lia].
  - eexists _, _. split; [done|lia].
Qed.

Lemma do_while_fuel fuel encoded : ∀ index shift result r fuel',
  do_while fuel encoded index shift result = Some r → fuel ≤ fuel' →
  do_while fuel' encoded index shift result = Some r.
Proof.
  induction fuel as [|fuel IH]; intros index shift result r fuel' Hrun Hle;
    [done|].
  destruct fuel' as [|fuel']; [lia|].
  cbn [do_while] in *.
  destruct (ge_0x20 (char_minus_63 encoded index)); [|done].
  apply IH; [done|lia].
Qed.

Lemma while_loop_terminates fuel encoded :
  ∀ index lat lng points,
  length encoded - index < fuel →
  ∃ points',
    while_loop fuel encoded (length encoded) index lat lng points
    = Some points'.
Proof.
  induction fuel as [|fuel IH]; intros index lat lng points Hfuel; [lia|].
  cbn [while_loop]. case_bool_decide as Hlt; [|by eexists].
  destruct (do_while_terminates (S fuel) encoded index 0 0 Hfuel)
    as (index1 & result1 & -> & Hlt1).
  cbn [mbind option_bind].
  destruct (do_while_terminates (S fuel) encoded index1 0 0 ltac:(lia))
    as (index2 & result2 & -> & Hlt2).
  cbn [mbind option_bind].
  apply IH. lia.
Qed.

Lemma while_loop_fuel fuel encoded len :
  ∀ index lat lng points r fuel',
  while_loop fuel encoded len index lat lng points = Some r → fuel ≤ fuel' →
  while_loop fuel' encoded len index lat lng points = Some r.
Proof.
  induction fuel as [|fuel IH]; intros index lat lng points r fuel' Hrun Hle;
    [done|].
  destruct fuel' as [|fuel']; [lia|].
  cbn [while_loop] in *. case_bool_decide; [|done].
  destruct (do_while (S fuel) encoded index 0 0) as [[index1 result1]|]
    eqn:H1; [|done].
  rewrite (do_while_fuel _ _ _ _ _ _ (S fuel') H1) by lia.
  cbn [mbind option_bind] in *.
  destruct (do_while (S fuel) encoded index1 0 0) as [[index2 result2]|]
    eqn:H2; [|done].
  rewrite (do_while_fuel _ _ _ _ _ _ (S fuel') H2) by lia.
  cbn [mbind option_bind] in *.
  apply (IH _ _ _ _ _ _ Hrun). lia.
Qed.

Lemma for_of_terminates fuel t : ∀ points,
  total_length t < fuel → ∃ points', for_of fuel t points = Some points'.
Proof.
  induction t as [|step t IH]; intros points Hfuel; [by eexists|].
  cbn [for_of total_length foldr] in *.
  destruct (while_loop_terminates fuel (Polyline.points (polyline step))
              0 0%float 0%float points ltac:(lia)) as [points' ->].
  cbn [mbind option_bind]. apply IH. unfold total_length. lia.
Qed.

Lemma for_of_fuel fuel t : ∀ points r fuel',
  for_of fuel t points = Some r → fuel ≤ fuel' →
  for_of fuel' t points = Some r.
Proof.
  induction t as [|step t IH]; intros points r fuel' Hrun Hle; [done|].
  cbn [for_of] in *.
  destruct (while_loop fuel _ _ _ _ _ points) as [points'|] eqn:Hw;
    [|done].
  rewrite (while_loop_fuel _ _ _ _ _ _ _ _ fuel' Hw) by done.
  cbn [mbind option_bind] in *. by apply IH.
Qed.

Lemma while_loop_points fuel encoded len : ∀ index lat lng points r before,
  while_loop fuel encoded len index lat lng points = Some r →
  while_loop fuel encoded len index lat lng (before ++ points)
  = Some (before ++ r).
Proof.
  induction fuel as [|fuel IH]; intros index lat lng points r before; [done|].
  cbn [while_loop]. case_bool_decide; [|by intros [= <-]].
  destruct (do_while (S fuel) encoded index 0 0) as [[index1 result1]|];
    [|done].
  cbn [mbind option_bind].
  destruct (do_while (S fuel) encoded index1 0 0) as [[index2 result2]|];
    [|done].
  cbn [mbind option_bind].
  intros Hrun. rewrite <- app_assoc. by apply IH.
Qed.

Lemma for_of_points fuel t : ∀ points r before,
  for_of fuel t points = Some r →
  for_of fuel t (before ++ points) = Some (before ++ r).
Proof.
  induction t as [|step t IH]; intros points r before; cbn [for_of].
  - by intros [= <-].
  - destruct (while_loop fuel _ _ _ _ _ points) as [points'|] eqn:Hstep;
      [|done].
    rewrite (while_loop_points _ _ _ _ _ _ _ _ before Hstep).
    cbn [mbind option_bind]. apply IH.
Qed.

Lemma for_of_app fuel t1 t2 points :
  for_of fuel (t1 ++ t2) points
  = for_of fuel t1 points ≫= for_of fuel t2.
Proof.
  revert points. induction t1 as [|step t1 IH]; intros points; [done|].
  cbn [for_of app].
  destruct (while_loop fuel _ _ _ _ _ points) as [points'|]; [|done].
  cbn [mbind option_bind]. apply IH.
Qed.

Lemma total_length_app t1 t2 :
  total_length (t1 ++ t2) = total_length t1 + total_length t2.
Proof.
  induction t1 as [|step t1 IH]; [done|].
  cbn [total_length foldr app]. fold (total_length (t1 ++ t2)).
  fold (total_length t1). lia.
Qed.

Lemma for_of_decode t fuel :
  total_length t < fuel → for_of fuel t [] = Some (decode t).
Proof.
  intros Hfuel. unfold decode, decode_fuel, decode_bound.
  destruct (for_of_terminates (S (total_length t)) t []) as [points Hrun];
    [lia|].
  rewrite Hrun. cbv [default from_option id].
  apply (for_of_fuel _ _ _ _ _ Hrun). lia.
Qed.

(** Decoding is compatible with concatenation, on all records, well-formed
    or not. *)
Lemma decode_app (t1 t2 : list Step) :
  decode (t1 ++ t2) = decode t1 ++ decode t2.
Proof.
  pose proof (total_length_app t1 t2) as Hlen.
  pose proof (for_of_decode (t1 ++ t2) (decode_bound (t1 ++ t2))
                ltac:(unfold decode_bound; lia)) as Hall.
  pose proof (for_of_decode t1 (decode_bound (t1 ++ t2))
                ltac:(unfold decode_bound; lia)) as H1.
  pose proof (for_of_decode t2 (decode_bound (t1 ++ t2))
                ltac:(unfold decode_bound; lia)) as H2.
  rewrite for_of_app, H1 in Hall. cbn [mbind option_bind] in Hall.
  rewrite <- (app_nil_r (decode t1)) in Hall at 1.
  rewrite (for_of_points _ _ _ _ (decode t1) H2) in Hall.
  by injection Hall.
Qed.

(** C9: [decode] is total.  On every sequence of records, whatever code
    units their strings hold (truncated runs and characters outside the
    range of the format included), every loop ends within one more
    iteration than there are characters and a list of points is returned;
    nothing in [decode] can raise on such records. *)
Theorem decode_total (t : list Step) (fuel : nat) :
  decode_bound t ≤ fuel → decode_fuel fuel t = Some (decode t).
Proof.
  intros Hfuel. unfold decode, decode_fuel.
  destruct (for_of_terminates (decode_bound t) t []) as [points' Hrun];
    [unfold decode_bound; lia|].
  rewrite Hrun. cbv [default from_option id].
  by apply (for_of_fuel _ _ _ _ _ Hrun).
Qed.

Lemma decode_total_witness :
  decode_bound malformed_steps ≤ 9
  ∧ decode_fuel 9 malformed_steps = Some (decode malformed_steps).
Proof.
  assert (decode_bound malformed_steps ≤ 9) as Hfuel by (vm_compute; lia).
  split; [exact Hfuel|]. exact (decode_total malformed_steps 9 Hfuel).
Defined.

(** ** [decode] and the polyline format *)

Section DecodeFormat.
Import PolylineFormat.
Local Open Scope Z_scope.

Lemma ToInt32_small z : - 2147483648 ≤ z < 2147483648 → ToInt32 z = z.
Proof.
  intros Hz. unfold ToInt32.
  change (2 ^ 31) with 2147483648. change (2 ^ 32) with 4294967296.
  rewrite Z.mod_small by lia. lia.
Qed.

Ltac pow31 := change (2 ^ 31) with 2147483648 in *.

Lemma data_bounds k : 0 ≤ data k < 32.
Proof.
  unfold data. change 31 with (Z.ones 5). rewrite Z.land_ones by lia.
  apply Z.mod_pos_bound. lia.
Qed.

Lemma js_and_data k : 0 ≤ k < 64 → js_and k 31 = data k.
Proof.
  intros Hk. unfold js_and, data. by rewrite !ToInt32_small by lia.
Qed.

Lemma continues_ge k : 0 ≤ k < 64 → continues k = (32 <=? k).
Proof.
  intros Hk. unfold continues.
  replace (Z.testbit k 5) with (Z.testbit (Z.shiftr k 5) 0)
    by (rewrite Z.shiftr_spec by lia; done).
  rewrite Z.bit0_eqb, Z.shiftr_div_pow2 by lia.
  change (2 ^ 5) with 32.
  destruct (Z.leb_spec 32 k).
  - replace k with (1 * 32 + (k - 32)) by lia.
    rewrite Z.div_add_l by lia. rewrite (Z.div_small (k - 32)) by lia.
    done.
  - rewrite Z.div_small by lia. done.
Qed.

Lemma pow32_shift j : 0 ≤ j → 32 ^ j = 2 ^ (5 * j).
Proof. intros Hj. change 32 with (2 ^ 5). by rewrite <- Z.pow_mul_r by lia. Qed.

Lemma js_shl_data d j :
  0 ≤ d → 0 ≤ j → d * 32 ^ j < 2 ^ 31 → js_shl d (5 * j) = d * 32 ^ j.
Proof.
  intros Hd Hj Hfit. unfold js_shl. pow31.
  destruct (decide (d = 0)) as [->|Hd0].
  { rewrite (ToInt32_small 0), Z.shiftl_0_l, (ToInt32_small 0) by lia. lia. }
  assert (0 < 32 ^ j) as Hpos by (apply Z.pow_pos_nonneg; lia).
  assert (j < 7) as Hj7.
  { destruct (decide (j < 7)) as [|Hge]; [done|].
    assert (32 ^ 7 ≤ 32 ^ j) as Hmono by (apply Z.pow_le_mono_r; lia).
    change (32 ^ 7) with 34359738368 in Hmono. nia. }
  rewrite (ToInt32_small d) by nia.
  rewrite Z.mod_small by lia.
  rewrite Z.shiftl_mul_pow2, <- pow32_shift by lia.
  apply ToInt32_small. nia.
Qed.

Lemma lor_disjoint r d n :
  0 ≤ n → 0 ≤ r < 2 ^ n → Z.lor r (d * 2 ^ n) = r + d * 2 ^ n.
Proof.
  intros Hn Hr.
  rewrite <- Z.lxor_lor, <- Z.add_nocarry_lxor; [done| |].
  all: apply Z.bits_inj'; intros m Hm; rewrite Z.land_spec, Z.bits_0.
  all: rewrite <- Z.shiftl_mul_pow2 by lia.
  all: destruct (decide (m < n)).
  all: try (rewrite Z.shiftl_spec_low by lia; apply andb_false_r).
  all: rewrite <- (Z.mod_small r (2 ^ n)) by lia.
  all: rewrite Z.mod_pow2_bits_high by lia; done.
Qed.

Lemma js_or_add r d j :
  0 ≤ j → 0 ≤ d → 0 ≤ r < 32 ^ j → r + d * 32 ^ j < 2 ^ 31 →
  js_or r (d * 32 ^ j) = r + d * 32 ^ j.
Proof.
  intros Hj Hd Hr Hfit. unfold js_or. pow31.
  assert (0 ≤ d * 32 ^ j) by (apply Z.mul_nonneg_nonneg; lia).
  rewrite !ToInt32_small by lia.
  rewrite pow32_shift in * by lia. apply lor_disjoint; lia.
Qed.

Lemma delta_of_zigzag result :
  0 ≤ result < 2 ^ 31 → delta_of result = zigzag result.
Proof.
  intros Hr. unfold delta_of, zigzag, js_and, js_sar, js_not. pow31.
  rewrite !ToInt32_small by lia.
  change (1 mod 32) with 1.
  assert (0 ≤ Z.shiftr result 1 < 2 ^ 31) as Hs.
  { rewrite Z.shiftr_div_pow2 by lia. change (2 ^ 1) with 2.
    split; [apply Z.div_pos; lia|].
    apply Z.div_lt_upper_bound; lia. }
  rewrite (ToInt32_small (Z.shiftr result 1)) by lia.
  change 1 with (Z.ones 1) at 1. rewrite Z.land_ones by lia.
  rewrite Z.bit0_eqb. change (2 ^ 1) with 2.
  destruct (Z.eqb_spec (result mod 2) 0) as [->|Hodd]; [done|].
  assert (result mod 2 = 1) as -> by (pose proof (Z.mod_pos_bound result 2); lia).
  done.
Qed.

Lemma runs_closed chunks : ∀ rs open,
  runs chunks = (rs, open) →
  chunks = concat rs ++ open ∧ Forall closed_run rs.
Proof.
  induction chunks as [|k rest IH]; intros rs open Hruns; cbn [runs] in Hruns.
  - by injection Hruns as <- <-.
  - destruct (runs rest) as [rs' open'].
    destruct (IH rs' open' eq_refl) as [-> Hclosed].
    destruct (continues k) eqn:Hk.
    + destruct rs' as [|r rs'']; injection Hruns as <- <-; [done|].
      apply Forall_cons in Hclosed as [Hr Hrs].
      split; [done|]. constructor; [by constructor|done].
    + injection Hruns as <- <-. split; [done|].
      constructor; [by constructor|done].
Qed.

Lemma accumulate_nonneg r : 0 ≤ accumulate r.
Proof.
  induction r as [|k r IH]; cbn [accumulate]; [done|].
  pose proof (data_bounds k). lia.
Qed.

Lemma closed_run_length r : closed_run r → (0 < length r)%nat.
Proof. destruct 1; cbn; lia. Qed.

Lemma drop_head {A} (l : list A) i x l' :
  drop i l = x :: l' → l !! i = Some x ∧ drop (S i) l = l'.
Proof.
  intros Hdrop.
  assert (l !! i = Some x) as Hx.
  { rewrite <- (Nat.add_0_r i), <- lookup_drop, Hdrop. done. }
  split; [done|].
  rewrite (drop_S _ _ _ Hx) in Hdrop. by injection Hdrop.
Qed.

Lemma do_while_run r : closed_run r →
  ∀ encoded index j result rest fuel,
  chunk <$> drop index encoded = r ++ rest →
  Forall (λ k, 0 ≤ k < 64) r →
  0 ≤ j → 0 ≤ result < 32 ^ j →
  result + 32 ^ j * accumulate r < 2 ^ 31 →
  (length r ≤ fuel)%nat →
  do_while fuel encoded index (5 * j) result
  = Some ((index + length r)%nat, result + 32 ^ j * accumulate r).
Proof.
  induction 1 as [k Hk|k r Hk Hr IH];
    intros encoded index j result rest fuel Hdrop Hrange Hj Hres Hfit Hfuel.
  all: destruct fuel as [|fuel]; [cbn in Hfuel; lia|].
  all: destruct (drop index encoded) as [|c l'] eqn:Hl; [done|].
  all: injection Hdrop as Hc Hrest.
  all: apply drop_head in Hl as [Hlookup Hl].
  all: apply Forall_cons in Hrange as [Hkr Hrange].
  all: cbn [do_while]; unfold char_minus_63.
  all: rewrite Hlookup; cbn [fmap option_fmap option_map ge_0x20].
  all: unfold int32_of; cbv [default from_option id].
  all: fold (chunk c); rewrite Hc.
  all: rewrite <- (continues_ge k), Hk by done.
  all: pose proof (data_bounds k) as Hdata.
  all: assert (0 < 32 ^ j) as Hpos by (apply Z.pow_pos_nonneg; lia).
  all: cbn [accumulate] in Hfit.
  all: rewrite js_and_data by done.
  - assert (result + data k * 32 ^ j < 2 ^ 31) as Hfit' by lia.
    assert (0 ≤ data k * 32 ^ j) by nia.
    rewrite js_shl_data by lia.
    rewrite js_or_add by lia.
    cbn [accumulate length]. do 2 f_equal; lia.
  - pose proof (accumulate_nonneg r) as Hacc.
    assert (0 ≤ data k * 32 ^ j) by nia.
    assert (0 ≤ 32 ^ j * accumulate r) by nia.
    assert (result + data k * 32 ^ j < 2 ^ 31) as Hfit' by nia.
    rewrite js_shl_data by lia.
    rewrite js_or_add by lia.
    replace (5 * j + 5) with (5 * (j + 1)) by lia.
    assert (32 ^ (j + 1) = 32 * 32 ^ j) as Hsucc
      by (rewrite Z.pow_add_r by lia; lia).
    rewrite (IH encoded (S index) (j + 1) _ rest fuel).
    + cbn [accumulate length]. do 2 f_equal; [lia|]. rewrite Hsucc. lia.
    + by rewrite Hl.
    + done.
    + lia.
    + rewrite Hsucc. nia.
    + rewrite Hsucc. nia.
    + cbn in Hfuel. lia.
Qed.

Lemma do_while_valid r encoded index rest (fuel : nat) :
  valid_run r →
  chunk <$> drop index encoded = r ++ rest →
  (length r ≤ fuel)%nat →
  do_while fuel encoded index 0 0
  = Some ((index + length r)%nat, accumulate r)
    ∧ delta_of (accumulate r) = zigzag (accumulate r).
Proof.
  intros (Hclosed & Hrange & Hfit) Hdrop Hfuel.
  pose proof (accumulate_nonneg r).
  split; [|by apply delta_of_zigzag].
  pose proof (do_while_run r Hclosed encoded index 0 0 rest fuel) as Hrun.
  change (5 * 0) with 0 in Hrun. change (32 ^ 0) with 1 in Hrun.
  rewrite Hrun by (done || lia). do 2 f_equal. lia.
Qed.

Lemma drop_fmap_app (encoded : jsstring) index r rest :
  chunk <$> drop index encoded = r ++ rest →
  chunk <$> drop (index + length r) encoded = rest
  ∧ (length r ≤ length encoded - index)%nat.
Proof.
  intros Hdrop. split.
  - rewrite <- drop_drop, fmap_drop, Hdrop.
    by rewrite drop_app_length.
  - apply (f_equal length) in Hdrop.
    rewrite length_fmap, length_drop, length_app in Hdrop. lia.
Qed.

Lemma while_loop_runs (n : nat) : ∀ rs encoded index lat lng points fuel,
  length rs = (2 * n)%nat →
  Forall valid_run rs →
  chunk <$> drop index encoded = concat rs →
  (length encoded - index < fuel)%nat →
  while_loop fuel encoded (length encoded) index lat lng points
  = Some (points ++ emit ((λ run, zigzag (accumulate run)) <$> rs) lat lng).
Proof.
  induction n as [|n IH];
    intros rs encoded index lat lng points fuel Hlen Hvalid Hdrop Hfuel.
  - destruct rs; [|done]. destruct fuel as [|fuel]; [lia|].
    cbn [while_loop]. apply fmap_nil_inv in Hdrop.
    apply drop_nil_inv, Nat.lt_eq_cases in Hdrop.
    rewrite bool_decide_eq_false_2 by lia.
    by rewrite app_nil_r.
  - destruct rs as [|r1 [|r2 rs]]; [done|cbn in Hlen; lia|].
    apply Forall_cons in Hvalid as [Hr1 Hvalid].
    apply Forall_cons in Hvalid as [Hr2 Hvalid].
    cbn [concat] in Hdrop.
    destruct (drop_fmap_app _ _ _ _ Hdrop) as [Hdrop1 Hle1].
    destruct (drop_fmap_app _ _ _ _ Hdrop1) as [Hdrop2 Hle2].
    pose proof (closed_run_length r1 (proj1 Hr1)).
    pose proof (closed_run_length r2 (proj1 Hr2)).
    destruct fuel as [|fuel]; [lia|]. cbn [while_loop].
    rewrite bool_decide_eq_true_2 by lia.
    destruct (do_while_valid r1 encoded index _ (S fuel) Hr1 Hdrop)
      as [-> Hd1]; [lia|].
    cbn [mbind option_bind]. rewrite Hd1.
    destruct (do_while_valid r2 encoded _ _ (S fuel) Hr2 Hdrop1)
      as [-> Hd2]; [lia|].
    cbn [mbind option_bind]. rewrite Hd2.
    rewrite (IH rs); [|cbn in Hlen; lia|done|done|lia].
    cbn [fmap list_fmap emit]. by rewrite <- app_assoc.
Qed.

Lemma well_formed_runs encoded :
  well_formed encoded = true →
  ∃ n rs,
    length rs = (2 * n)%nat ∧ Forall valid_run rs
    ∧ chunk <$> encoded = concat rs
    ∧ (runs (chunk <$> encoded)).1 = rs.
Proof.
  unfold well_formed.
  intros (((Hchars & Hopen)%andb_prop & Heven)%andb_prop & Hfit)%andb_prop.
  destruct (runs (chunk <$> encoded)) as [rs open] eqn:Hruns.
  apply runs_closed in Hruns as [Hconcat Hclosed].
  cbn [fst snd] in *.
  apply bool_decide_eq_true in Hopen as ->. rewrite app_nil_r in Hconcat.
  apply Nat.even_spec in Heven as [n Hn].
  exists n, rs. split; [done|]. split; [|done].
  assert (Forall (λ k, 0 ≤ k < 64) (concat rs)) as Hrange.
  { rewrite <- Hconcat. apply Forall_fmap.
    rewrite forallb_forall in Hchars.
    apply Forall_forall. intros c Hc%list_elem_of_In%Hchars.
    unfold chunk. cbn. lia. }
  rewrite forallb_forall in Hfit.
  apply Forall_forall. intros r Hr.
  split; [by eapply Forall_forall in Hclosed|].
  split.
  - apply Forall_forall. intros k Hk.
    eapply Forall_forall in Hrange; [done|].
    apply list_elem_of_In, in_concat. exists r.
    split; by apply list_elem_of_In.
  - apply list_elem_of_In, Hfit in Hr. lia.
Qed.

Lemma decode_string_spec encoded points fuel :
  well_formed encoded = true →
  (length encoded < fuel)%nat →
  while_loop fuel encoded (length encoded) 0 0%float 0%float points
  = Some (points ++ decode_string encoded).
Proof.
  intros (n & rs & Hlen & Hvalid & Hconcat & Hrs)%well_formed_runs Hfuel.
  unfold decode_string, deltas. rewrite Hrs.
  apply (while_loop_runs n); [done|done|done|lia].
Qed.

Lemma for_of_spec t : ∀ points fuel,
  Forall (λ step, well_formed (Polyline.points step.(polyline)) = true) t →
  (total_length t < fuel)%nat →
  for_of fuel t points = Some (points ++ decode_records t).
Proof.
  induction t as [|step t IH]; intros points fuel Hwf Hfuel.
  - by rewrite app_nil_r.
  - apply Forall_cons in Hwf as [Hstep Hwf].
    cbn [total_length foldr] in Hfuel. fold (total_length t) in Hfuel.
    cbn [for_of]. rewrite decode_string_spec by (done || lia).
    cbn [mbind option_bind]. rewrite IH by (done || lia).
    unfold decode_records. cbn [fmap list_fmap concat].
    by rewrite <- app_assoc.
Qed.

(** C3: on well-formed strings [decode] is the classic algorithm: chunks
    of code point minus 63, runs closed by a chunk without continuation
    flag and accumulated little-endian, zigzag decoding, alternating
    latitude and longitude deltas added to totals that start at zero, one
    point [{ latitude: lat / 1e5, longitude: lng / 1e5 }] per pair; the
    records are decoded independently and their points concatenated in
    order. *)
Theorem decode_classic (t : list Step) :
  forallb (λ step, well_formed (Polyline.points step.(polyline))) t = true →
  decode t = decode_records t.
Proof.
  intros Hwf.
  assert (Forall (λ step,
            well_formed (Polyline.points step.(polyline)) = true) t) as Hall.
  { rewrite forallb_forall in Hwf. apply Forall_forall.
    intros step Hstep. by apply Hwf, list_elem_of_In. }
  clear Hwf. rename Hall into Hwf.
  unfold decode, decode_fuel.
  rewrite for_of_spec by (done || unfold decode_bound; lia). done.
Qed.

Lemma decode_classic_witness :
  forallb (λ step, well_formed (Polyline.points step.(polyline)))
    reference_steps = true
  ∧ decode reference_steps = decode_records reference_steps.
Proof.
  assert (forallb (λ step, well_formed (Polyline.points step.(polyline)))
            reference_steps = true) as Hwf by reflexivity.
  split; [exact Hwf|]. exact (decode_classic reference_steps Hwf).
Defined.

(** The reference string of the format's documentation. *)
Example decode_reference :
  decode reference_steps
  = [mkMarker (3850000 / 1e5) (-12020000 / 1e5);
     mkMarker (4070000 / 1e5) (-12095000 / 1e5);
     mkMarker (4325200 / 1e5) (-12645300 / 1e5)]%float.
Proof. vm_compute. reflexivity. Qed.

(** A truncated string: the last run is read past the end of the string. *)
Example decode_truncated :
  decode [mkStep (Polyline.mk (code_units "_p~iF~ps|U_ul"))]
  = [mkMarker (3850000 / 1e5) (-12020000 / 1e5);
     mkMarker (3857008 / 1e5) (-12020000 / 1e5)]%float.
Proof. vm_compute. reflexivity. Qed.
End DecodeFormat.

(** ** Aggregation *)

Lemma reduce_from_aggregate results : ∀ index acc,
  reduce_from aggregate_step results index acc
  = Result.mk
      (Result.coordinates acc ++ concat (Segment.coordinates <$> results))
      (foldl PrimFloat.add (Result.distance acc)
         (Segment.distance <$> results))
      (foldl PrimFloat.add (Result.duration acc)
         (Segment.duration <$> results))
      (Result.fares acc ++ (Segment.fare <$> results))
      (from_option Segment.legs (Result.legs acc) (last results))
      (Result.waypointOrder acc ++ (Segment.waypointOrder <$> results)).
Proof.
  induction results as [|segment results IH]; intros index acc.
  - destruct acc. cbn. by rewrite !app_nil_r.
  - cbn [reduce_from]. rewrite IH. unfold aggregate_step at 1 2 3 4 5 6.
    cbn [Result.coordinates Result.distance Result.duration Result.fares
         Result.legs Result.waypointOrder fmap list_fmap concat foldl].
    rewrite <- !app_assoc. f_equal.
    destruct results as [|next results]; [reflexivity|].
    change (last (segment :: next :: results)) with (last (next :: results)).
    destruct (last (next :: results)) eqn:Hlast; [reflexivity|].
    by apply last_None in Hlast.
Qed.

(** C4: the composite's path is the concatenation of the segment paths in
    segment order, its distance and duration are the sums of the segments'
    distances and durations, and [fares] and [waypointOrder] hold one entry
    per segment, in segment order. *)
Theorem aggregate_fields (results : list Segment.t) :
  Result.coordinates (aggregate results)
  = concat (Segment.coordinates <$> results)
  ∧ Result.distance (aggregate results)
    = sum_numbers (Segment.distance <$> results)
  ∧ Result.duration (aggregate results)
    = sum_numbers (Segment.duration <$> results)
  ∧ Result.fares (aggregate results) = Segment.fare <$> results
  ∧ Result.waypointOrder (aggregate results)
    = Segment.waypointOrder <$> results
  ∧ length (Result.fares (aggregate results)) = length results
  ∧ length (Result.waypointOrder (aggregate results)) = length results.
Proof.
  unfold aggregate, reduce. rewrite reduce_from_aggregate.
  cbn [Result.coordinates Result.distance Result.duration Result.fares
       Result.waypointOrder app].
  by rewrite !length_fmap.
Qed.

(** C7: the composite's legs are the legs of the segment folded last; the
    legs of the other segments are overwritten, not concatenated. *)
Theorem aggregate_legs_last (results : list Segment.t) (segment : Segment.t) :
  Result.legs (aggregate (results ++ [segment])) = Segment.legs segment
  ∧ Result.legs (aggregate []) = [].
Proof.
  unfold aggregate, reduce. rewrite reduce_from_aggregate.
  cbn [Result.legs]. by rewrite last_snoc.
Qed.

(** ** [Promise.all] *)

Lemma first_failure_rejected {E A} (promises : list (outcome E A)) schedule e :
  first_failure promises schedule = Some e →
  ∃ i, i ∈ schedule ∧ promises !! i = Some (Rejected e).
Proof.
  unfold first_failure.
  induction schedule as [|i schedule IH]; [done|]. cbn [omap list_omap].
  destruct (promises !! i) as [[a|e']|] eqn:Hi.
  - intros (j & Hj & Hp)%IH. exists j. split; [by right|done].
  - intros [= ->]. exists i. split; [by left|done].
  - intros (j & Hj & Hp)%IH. exists j. split; [by right|done].
Qed.

Lemma first_failure_exists {E A} (promises : list (outcome E A)) schedule i e :
  i ∈ schedule → promises !! i = Some (Rejected e) →
  ∃ e', first_failure promises schedule = Some e'.
Proof.
  unfold first_failure.
  induction schedule as [|j schedule IH]; [by intros ?%elem_of_nil|].
  intros [->|Hi]%elem_of_cons Hp; cbn [omap list_omap].
  - rewrite Hp. by eexists.
  - destruct (promises !! j) as [[a|e'']|]; [by apply IH|by eexists|by apply IH].
Qed.

Lemma Promise_all_rejects {E A} (promises : list (outcome E A)) schedule e :
  first_failure promises schedule = Some e →
  ∀ fulfilled,
    (∀ i, i ∈ fulfilled → ∃ a, promises !! i = Some (Resolved a)) →
    Promise_all_from promises schedule fulfilled = Some (Rejected e).
Proof.
  induction schedule as [|i schedule IH]; [done|].
  intros Hfirst fulfilled Hfulfilled.
  destruct (first_failure_rejected _ _ _ Hfirst) as (j & Hj & Hp).
  cbn [Promise_all_from].
  rewrite bool_decide_eq_false_2.
  2:{ intros Hall. apply lookup_lt_Some in Hp as Hlt.
      eapply Forall_forall in Hall; [|apply elem_of_seq; split; [lia|exact Hlt]].
      destruct (Hfulfilled j Hall) as [a Ha]. congruence. }
  unfold first_failure in Hfirst. cbn [omap list_omap] in Hfirst.
  destruct (promises !! i) as [[a|e']|] eqn:Hi.
  - apply IH; [done|].
    intros k [->|Hk]%elem_of_cons; [by eexists|by apply Hfulfilled].
  - by injection Hfirst as ->.
  - by apply IH.
Qed.

Lemma Promise_all_fulfils_from {E A} (promises : list (outcome E A)) schedule :
  Forall (λ p, ∃ a, p = Resolved a) promises →
  ∀ fulfilled,
    (∀ i, i < length promises → i ∈ fulfilled ∨ i ∈ schedule) →
    Promise_all_from promises schedule fulfilled
    = Some (Resolved (fulfilled_values promises)).
Proof.
  intros Hresolved.
  induction schedule as [|i schedule IH]; intros fulfilled Hcover;
    cbn [Promise_all_from].
  - rewrite bool_decide_eq_true_2; [done|].
    apply Forall_forall. intros i [_ Hi]%elem_of_seq.
    destruct (Hcover i Hi) as [|[]%elem_of_nil]; done.
  - case_bool_decide; [done|].
    destruct (promises !! i) as [p|] eqn:Hp.
    + eapply Forall_forall in Hresolved as [a ->];
        [|by eapply list_elem_of_lookup_2].
      apply IH. intros j Hj.
      destruct (Hcover j Hj) as [|[->|]%elem_of_cons]; [by left; right|by left; left|by right].
    + apply IH. intros j Hj.
      destruct (Hcover j Hj) as [|[->|]%elem_of_cons]; [by left| |by right].
      apply lookup_ge_None in Hp. lia.
Qed.

(** When every fetch succeeds and has settled, the whole is fulfilled with
    the results in route order, whatever the order of settlement. *)
Lemma Promise_all_fulfils {E A} (promises : list (outcome E A)) schedule :
  Forall (λ p, ∃ a, p = Resolved a) promises →
  (∀ i, i < length promises → i ∈ schedule) →
  Promise_all promises schedule = Some (Resolved (fulfilled_values promises)).
Proof.
  intros Hresolved Hcover. apply Promise_all_fulfils_from; [done|].
  intros i Hi. right. by apply Hcover.
Qed.

(** ** A run of the component *)

Section Run.
Variable number_to_string : number → string.
Variable toLowerCase : string → string.
Variable type_error_text : string.
Variable transport : nat → string → reply.
Variable props : Props.t.

Lemma request_events index route :
  Forall is_request_event
    (request number_to_string toLowerCase type_error_text transport props
       index route).1.
Proof.
  unfold request. cbn [fst]. apply Forall_app. split.
  - case_bool_decide; [|done]. unfold notify.
    destruct (Props.onStart props); by repeat constructor.
  - by repeat constructor.
Qed.

Lemma requests_events : Forall is_request_event
  (concat (fst <$> requests number_to_string toLowerCase type_error_text
                     transport props)).
Proof.
  apply Forall_forall. intros e (l & Hl & He)%list_elem_of_In%in_concat.
  apply list_elem_of_In, list_elem_of_fmap in Hl as ([l' p] & -> & Hp).
  apply list_elem_of_lookup in Hp as [i Hp].
  unfold requests in Hp. rewrite list_lookup_imap in Hp.
  destruct (routes_of props !! i) as [route|]; [|done].
  apply (inj Some), (f_equal fst) in Hp. cbn [fst] in Hp.
  pose proof (request_events i route) as Hall. rewrite Hp in Hall.
  eapply Forall_forall in Hall; [done|]. by apply list_elem_of_In.
Qed.

Lemma request_events_calls events :
  Forall is_request_event events →
  ready_calls events = [] ∧ error_calls events = [].
Proof.
  induction 1 as [|e events He _ [IH1 IH2]]; [done|].
  destruct e; try done.
Qed.

Lemma routes_of_build :
  build_routes (Props.splitWaypoints props) (Props.waypoints props)
    (Props.origin props) (Props.destination props)
  = Some (routes_of props).
Proof.
  unfold routes_of.
  by destruct (build_routes_total (Props.splitWaypoints props)
                 (Props.waypoints props) (Props.origin props)
                 (Props.destination props)) as [routes ->].
Qed.

Lemma fetchAndRenderRoute_settle schedule st :
  truthy_string (Props.apikey props) = true →
  fetchAndRenderRoute number_to_string toLowerCase type_error_text transport
    props schedule st
  = Some
      (let '(st', events) :=
         settle props st
           (Promise_all
              (segment_promises number_to_string toLowerCase type_error_text
                 transport props) schedule) in
       (st', concat (fst <$> requests number_to_string toLowerCase
                               type_error_text transport props) ++ events)).
Proof.
  intros Hkey. unfold fetchAndRenderRoute.
  rewrite Hkey, routes_of_build. cbn [negb mbind option_bind].
  fold (requests number_to_string toLowerCase type_error_text transport
          props).
  fold (segment_promises number_to_string toLowerCase type_error_text
          transport props).
  by destruct (settle props st _).
Qed.

(** C5: when the fetch of some segment fails, the run makes no ready call
    and sets no path, all three state cells are reset to [null], and the
    error observer, when one is supplied, is called exactly once, with the
    message of the failure that is observed first. *)
Theorem all_or_nothing (schedule : list nat) (st : State.t) (i : nat)
    (e : string) :
  truthy_string (Props.apikey props) = true →
  i ∈ schedule →
  segment_promises number_to_string toLowerCase type_error_text transport
    props !! i = Some (Rejected e) →
  ∃ errorMessage events,
    first_failure
      (segment_promises number_to_string toLowerCase type_error_text
         transport props) schedule = Some errorMessage
    ∧ fetchAndRenderRoute number_to_string toLowerCase type_error_text
        transport props schedule st
      = Some (State.mk None None None, events)
    ∧ ready_calls events = []
    ∧ error_calls events
      = (if Props.onError props then [errorMessage] else []).
Proof.
  intros Hkey Hi Hp.
  destruct (first_failure_exists _ _ _ _ Hi Hp) as [errorMessage Hfirst].
  exists errorMessage. eexists. split; [done|].
  rewrite fetchAndRenderRoute_settle by done.
  unfold Promise_all.
  rewrite (Promise_all_rejects _ _ _ Hfirst) by (by intros ? ?%elem_of_nil).
  cbn [settle resetState]. split; [reflexivity|].
  destruct (request_events_calls _ requests_events) as [Hready Herror].
  unfold ready_calls, error_calls in *.
  rewrite !omap_app, Hready, Herror.
  unfold notify. by destruct (Props.onError props).
Qed.

End Run.

Lemma all_or_nothing_witness :
  ∃ errorMessage events,
    first_failure
      (segment_promises sample_number_to_string id "TypeError"
         sample_transport (sample_props (sample_marker 1) 23)) [2; 1; 0]
    = Some errorMessage
    ∧ fetchAndRenderRoute sample_number_to_string id "TypeError"
        sample_transport (sample_props (sample_marker 1) 23) [2; 1; 0]
        (State.mk (Some [sample_marker 1]) None None)
      = Some (State.mk None None None, events)
    ∧ ready_calls events = []
    ∧ error_calls events = [errorMessage].
Proof.
  apply (all_or_nothing sample_number_to_string id "TypeError"
           sample_transport (sample_props (sample_marker 1) 23) [2; 1; 0]
           (State.mk (Some [sample_marker 1]) None None) 1
           "Error on GMAPS route request: TypeError: Network request failed").
  - reflexivity.
  - apply list_elem_of_further, list_elem_of_here.
  - reflexivity.
Defined.

(** A run in which every fetch succeeds: two routes, settled in reverse
    order. *)
Example run_succeeds :
  ∃ st events,
    effect sample_number_to_string id "TypeError"
      (λ _ _, Body sample_response) (sample_props (sample_marker 1) 12)
      [1; 0] (State.mk None None None)
    = Some (st, events)
    ∧ State.coordinates st
      = Some (decode reference_steps ++ decode reference_steps)
    ∧ Result.distance <$> ready_calls events = [2%float]
    ∧ error_calls events = [].
Proof.
  eexists _, _. split; [vm_compute; reflexivity|].
  repeat split; vm_compute; reflexivity.
Qed.

(** ** Failures of one fetch *)

Section FetchRoute.
Local Open Scope string_scope.

Variable type_error_text : string.
Variable filterRoute : option (list Segment.t → option nat).
Variable precision : precision.

(** C8: a response whose status is not ['OK'] rejects with the provider's
    [error_message]; when that is absent or empty, with the status; when
    that is absent or empty too, with ['Unknown error']; a response with
    status ['OK'] and no route rejects as well.  Every rejection carries
    the prefix of the handler at line 323. *)
Theorem fetchRoute_failures (json : Response.t) :
  (Response.status json ≠ Some "OK" →
   (∀ message, Response.error_message json = Some message → message ≠ "" →
      fetchRoute type_error_text filterRoute precision (Body json)
      = Rejected ("Error on GMAPS route request: " ++ message))
   ∧ (∀ status,
        Response.error_message json = None
        ∨ Response.error_message json = Some "" →
        Response.status json = Some status → status ≠ "" →
        fetchRoute type_error_text filterRoute precision (Body json)
        = Rejected ("Error on GMAPS route request: " ++ status))
   ∧ (Response.error_message json = None
      ∨ Response.error_message json = Some "" →
      Response.status json = None ∨ Response.status json = Some "" →
      fetchRoute type_error_text filterRoute precision (Body json)
      = Rejected ("Error on GMAPS route request: Unknown error")))
  ∧ (Response.status json = Some "OK" → Response.routes json = [] →
     fetchRoute type_error_text filterRoute precision (Body json)
     = Rejected ("Error on GMAPS route request: undefined")).
Proof.
  unfold fetchRoute, fetchRoute_then. split.
  - intros Hstatus. rewrite bool_decide_eq_false_2 by done. cbn [negb].
    repeat split.
    + intros message -> Hmessage. by destruct message.
    + intros status [-> | ->] -> Hstatus'; by destruct status.
    + by intros [-> | ->] [-> | ->].
  - intros -> ->. reflexivity.
Qed.

End FetchRoute.

Lemma fetchRoute_failures_witness :
  fetchRoute "TypeError" None low
    (Body (Response.mk (Some "REQUEST_DENIED") (Some "The key is invalid.")
             []))
  = Rejected "Error on GMAPS route request: The key is invalid."
  ∧ fetchRoute "TypeError" None low
      (Body (Response.mk (Some "ZERO_RESULTS") None []))
    = Rejected "Error on GMAPS route request: ZERO_RESULTS"
  ∧ fetchRoute "TypeError" None low (Body (Response.mk None (Some "") []))
    = Rejected "Error on GMAPS route request: Unknown error"
  ∧ fetchRoute "TypeError" None low (Body (Response.mk (Some "OK") None []))
    = Rejected "Error on GMAPS route request: undefined".
Proof.
  split; [|split; [|split]].
  - destruct (fetchRoute_failures "TypeError" None low
                (Response.mk (Some "REQUEST_DENIED")
                   (Some "The key is invalid.") [])) as [Hfailed _].
    destruct Hfailed as (Hmessage & _ & _); [discriminate|].
    apply Hmessage; [reflexivity|discriminate].
  - destruct (fetchRoute_failures "TypeError" None low
                (Response.mk (Some "ZERO_RESULTS") None [])) as [Hfailed _].
    destruct Hfailed as (_ & Hstatus & _); [discriminate|].
    apply Hstatus; [left; reflexivity|reflexivity|discriminate].
  - destruct (fetchRoute_failures "TypeError" None low
                (Response.mk None (Some "") [])) as [Hfailed _].
    destruct Hfailed as (_ & _ & Hunknown); [discriminate|].
    apply Hunknown; [right; reflexivity|left; reflexivity].
  - destruct (fetchRoute_failures "TypeError" None low
                (Response.mk (Some "OK") None [])) as [_ Hempty].
    apply Hempty; reflexivity.
Defined.

(** ** The waypoints parameter *)

Section Waypoints.
Local Open Scope string_scope.

Variable number_to_string : number → string.

(** Without optimization, waypoints whose coordinates are truthy are
    formatted as ["lat,lng"] and joined with ["|"]. *)
Lemma waypoints_string_plain (waypoints : list Marker) :
  Forall (λ w, truthy_number (latitude w) && truthy_number (longitude w)
               = true) waypoints →
  waypoints_string number_to_string false waypoints
  = String.concat "|" (coordinate_string number_to_string <$> waypoints).
Proof.
  intros Htruthy. unfold waypoints_string, join. f_equal.
  rewrite <- list_fmap_compose. apply Forall_fmap_ext_1.
  eapply Forall_impl; [exact Htruthy|].
  intros w Hw. cbn. unfold waypoint_entry. by rewrite Hw.
Qed.

(** With optimization, line 173 interpolates the array of waypoint
    objects and not the string built at lines 167-169: every waypoint
    becomes ["[object Object]"], whatever its coordinates, and the
    separator is a comma. *)
Lemma waypoints_string_optimized (waypoints : list Marker) :
  waypoints_string number_to_string true waypoints
  = "optimize:true|"
    ++ String.concat "," (replicate (length waypoints) "[object Object]").
Proof.
  unfold waypoints_string, join. f_equal. f_equal.
  induction waypoints as [|w waypoints IH]; [done|].
  cbn [fmap list_fmap length replicate]. by f_equal.
Qed.

(** C6, at the input [optimizeWaypoints = true] and
    [waypoints = [{ latitude: 1, longitude: 2 }]]: the parameter is
    ["optimize:true|[object Object]"]; the coordinates, which the plain
    parameter of the same waypoints carries, are lost. *)
Theorem optimize_drops_coordinates :
  waypoints_string number_to_string true [mkMarker 1 2]
  = "optimize:true|[object Object]"
  ∧ waypoints_string number_to_string false [mkMarker 1 2]
    = number_to_string 1%float ++ "," ++ number_to_string 2%float
  ∧ waypoints_string number_to_string true [mkMarker 1 2]
    = waypoints_string number_to_string true [mkMarker 3 4].
Proof. by split. Qed.

End Waypoints.

(** ** Coordinates equal to zero *)

Lemma truthy_number_zero (x : number) :
  PrimFloat.is_zero x = true → truthy_number x = false.
Proof. intros Hx. unfold truthy_number. by rewrite Hx. Qed.

Section Zero.
Local Open Scope string_scope.

Variable number_to_string : number → string.
Variable toLowerCase : string → string.
Variable type_error_text : string.
Variable transport : nat → string → reply.

(** C10: a coordinate that is zero counts as missing.  When the latitude
    or the longitude of the origin or of the destination is zero, the
    effect leaves the state as it is and makes no call at all, neither a
    fetch nor an observer call; and a waypoint with a zero coordinate is
    mapped to the waypoint object itself, which the join renders as
    ["[object Object]"], not to a ["lat,lng"] string. *)
Theorem zero_coordinate_is_missing (props : Props.t) (schedule : list nat)
    (st : State.t) (waypoint : Marker) :
  (PrimFloat.is_zero (latitude (Props.origin props)) = true
   ∨ PrimFloat.is_zero (longitude (Props.origin props)) = true
   ∨ PrimFloat.is_zero (latitude (Props.destination props)) = true
   ∨ PrimFloat.is_zero (longitude (Props.destination props)) = true →
   effect number_to_string toLowerCase type_error_text transport props
     schedule st = Some (st, []))
  ∧ (PrimFloat.is_zero (latitude waypoint) = true
     ∨ PrimFloat.is_zero (longitude waypoint) = true →
     waypoint_entry number_to_string waypoint = inr waypoint
     ∧ waypoints_string number_to_string false [waypoint]
       = "[object Object]").
Proof.
  split.
  - intros Hzero. unfold effect.
    destruct Hzero as [Hz|[Hz|[Hz|Hz]]];
      rewrite (truthy_number_zero _ Hz);
      by rewrite ?andb_false_r.
  - intros Hzero.
    assert (waypoint_entry number_to_string waypoint = inr waypoint) as Hentry.
    { unfold waypoint_entry.
      destruct Hzero as [Hz|Hz];
        rewrite (truthy_number_zero _ Hz); by rewrite ?andb_false_r. }
    split; [done|].
    unfold waypoints_string, join. cbn [fmap list_fmap]. by rewrite Hentry.
Qed.

End Zero.

Lemma zero_coordinate_is_missing_witness :
  effect sample_number_to_string id "TypeError" sample_transport
    (sample_props (mkMarker 0 5) 3) [0] (State.mk None None None)
  = Some (State.mk None None None, [])
  ∧ waypoint_entry sample_number_to_string (mkMarker 5 0)
    = inr (mkMarker 5 0).
Proof.
  split.
  - apply (zero_coordinate_is_missing sample_number_to_string id "TypeError"
             sample_transport (sample_props (mkMarker 0 5) 3) [0]
             (State.mk None None None) (mkMarker 5 0)).
    left. reflexivity.
  - apply (zero_coordinate_is_missing sample_number_to_string id "TypeError"
             sample_transport (sample_props (mkMarker 0 5) 3) [0]
             (State.mk None None None) (mkMarker 5 0)).
    right. reflexivity.
Defined.
